(** * Screenshot tree reconciliation ([.github/scripts/sync_folders.py])

    A shallow embedding of the reconciliation script and the proofs of its
    specification.  The file system is a finite map from paths to nodes,
    the Python functions are state-passing computations that may raise,
    and the image library (PIL, imagehash) is an interface. *)

From stdpp Require Import gmap strings list fin_maps sorting.
From Stdlib.Strings Require Import Byte Ascii.
From Stdlib Require Import ZArith.

Open Scope string_scope.
Open Scope list_scope.

(** ** Paths and the file system *)

(** A path is the list of its components, innermost first: [a/b/c] is
    [["c"; "b"; "a"]].  So [p / n] is [n :: p], [p.name] is the head and
    [p.parent] the tail. *)
Abbreviation path := (list string).

Definition child (d : path) (n : string) : path := n :: d.

Definition name (p : path) : string :=
  match p with
  | [] => ""
  | n :: _ => n
  end.

Definition parent (p : path) : path := tail p.


(** A node is a regular file with its bytes, or a directory.  Symbolic
    links, permissions and time stamps are not modelled. *)
Inductive node : Type :=
  | File (c : list byte)
  | Dir.

#[global] Instance byte_eq_dec : EqDecision byte.
Proof.
  intros x y. destruct (Byte.eqb x y) eqn:E.
  - left. by apply Byte.byte_dec_bl.
  - right. intros Hxy. apply Byte.byte_dec_lb in Hxy. congruence.
Defined.

#[global] Instance node_eq_dec : EqDecision node.
Proof. solve_decision. Defined.

Abbreviation fs := (gmap (list string) node).

(** Every entry lives in a directory. *)
Definition wf (m : fs) : Prop :=
  map_Forall (λ p _, match p with [] => True | _ :: d => m !! d = Some Dir end) m.

#[global] Instance wf_dec m : Decision (wf m).
Proof. unfold wf. apply map_Forall_dec. intros [|? ?] ?; apply _. Defined.

(** ** Exceptions and the computation monad *)

Inductive exn : Type :=
  | FileNotFoundError
  | NotADirectoryError
  | IsADirectoryError
  | FileExistsError
  | SameFileError
  | UnidentifiedImageError
  | OSError
  | TypeError
  | KeyError.

(** A computation reads and writes the file system and returns a value or
    raises; what it wrote before raising stays written. *)
Definition M (A : Type) : Type := fs → fs * (exn + A).

Definition ret {A} (a : A) : M A := λ m, (m, inr a).

Definition raise {A} (e : exn) : M A := λ m, (m, inl e).

Definition bind {A B} (c : M A) (k : A → M B) : M B :=
  λ m, match c m with
       | (m', inr a) => k a m'
       | (m', inl e) => (m', inl e)
       end.

#[global] Instance M_ret : MRet M := @ret.
#[global] Instance M_bind : MBind M := λ A B k c, bind c k.

(** The current file system, for the tests a loop makes on it. *)
Definition get_fs : M fs := λ m, (m, inr m).

(** [for x in l: s = body x s]. *)
Fixpoint for_each {A S} (l : list A) (body : A → S → M S) (s : S) : M S :=
  match l with
  | [] => ret s
  | x :: l' => s' ← body x s; for_each l' body s'
  end.

(** ** pathlib and shutil *)

Definition exists_ (p : path) : M bool := λ m, (m, inr (bool_decide (is_Some (m !! p)))).

Definition is_dir (m : fs) (p : path) : bool :=
  match m !! p with
  | Some Dir => true
  | _ => false
  end.

Definition is_file (m : fs) (p : path) : bool :=
  match m !! p with
  | Some (File _) => true
  | _ => false
  end.

Definition is_child_of (d : path) (p : path) : bool :=
  match p with
  | [] => false
  | _ :: d' => bool_decide (d' = d)
  end.

(** The entries of directory [d], in the order of the map (any order, as
    for [os.listdir]). *)
Definition children (m : fs) (d : path) : list path :=
  filter (λ p, is_child_of d p = true) (map fst (map_to_list m)).

Definition iterdir (d : path) : M (list path) :=
  λ m, match m !! d with
       | Some Dir => (m, inr (children m d))
       | Some (File _) => (m, inl NotADirectoryError)
       | None => (m, inl FileNotFoundError)
       end.

(** [Path.mkdir(parents=True, exist_ok=True)]. *)
Fixpoint mkdir_p (p : path) (m : fs) : fs * (exn + unit) :=
  match m !! p with
  | Some Dir => (m, inr tt)
  | Some (File _) => (m, inl FileExistsError)
  | None =>
      match p with
      | [] => (m, inl FileNotFoundError)
      | _ :: d =>
          match m !! d with
          | Some Dir => (<[p := Dir]> m, inr tt)
          | Some (File _) => (m, inl NotADirectoryError)
          | None =>
              match mkdir_p d m with
              | (m', inr _) => (<[p := Dir]> m', inr tt)
              | (m', inl e) => (m', inl e)
              end
          end
      end
  end.

(** [shutil.copy2(src, dst)]: a directory [dst] stands for the file of
    [src]'s name inside it; copying a file onto itself raises. *)
Definition copy2 (src dst : path) : M unit :=
  λ m,
    let dst' := if is_dir m dst then child dst (name src) else dst in
    if bool_decide (src = dst') && bool_decide (is_Some (m !! src))
    then (m, inl SameFileError)
    else
      match m !! src with
      | None => (m, inl FileNotFoundError)
      | Some Dir => (m, inl IsADirectoryError)
      | Some (File c) =>
          match m !! dst' with
          | Some Dir => (m, inl IsADirectoryError)
          | _ =>
              match m !! parent dst' with
              | Some Dir => (<[dst' := File c]> m, inr tt)
              | Some (File _) => (m, inl NotADirectoryError)
              | None => (m, inl FileNotFoundError)
              end
          end
      end.

(** [Path.unlink()]. *)
Definition unlink (p : path) : M unit :=
  λ m, match m !! p with
       | None => (m, inl FileNotFoundError)
       | Some Dir => (m, inl IsADirectoryError)
       | Some (File _) => (delete p m, inr tt)
       end.

(** ** Strings *)

Definition str_le (a b : string) : Prop := String.leb a b = true.

#[global] Instance str_le_dec : RelDecision str_le :=
  λ a b, decide (String.leb a b = true).

(** [sorted(names)]. *)
Definition sorted (l : list string) : list string := merge_sort str_le l.

(** [sorted(paths, key=lambda x: x.name)]. *)
Definition name_le (p q : path) : Prop := str_le (name p) (name q).

#[global] Instance name_le_dec : RelDecision name_le :=
  λ p q, decide (String.leb (name p) (name q) = true).

Definition sorted_by_name (l : list path) : list path := merge_sort name_le l.

Definition startswith (pre s : string) : bool := String.prefix pre s.

Definition lower_ascii (c : ascii) : ascii :=
  let n := nat_of_ascii c in
  if (65 <=? n)%nat && (n <=? 90)%nat then ascii_of_nat (n + 32) else c.

Fixpoint lower (s : string) : string :=
  match s with
  | EmptyString => EmptyString
  | String c s' => String (lower_ascii c) (lower s')
  end.

(** The part of [s] from its last ["."] on, if it has one. *)
Fixpoint from_last_dot (s : string) : option string :=
  match s with
  | EmptyString => None
  | String c s' =>
      match from_last_dot s' with
      | Some r => Some r
      | None => if Ascii.eqb c "." then Some s else None
      end
  end.

(** [PurePath.suffix]: with [i = name.rfind(".")], [name[i:]] when
    [0 < i < len(name) - 1], else the empty string. *)
Definition suffix (p : path) : string :=
  match from_last_dot (name p) with
  | Some r =>
      if (String.length r <? String.length (name p))%nat
         && (1 <? String.length r)%nat
      then r else ""
  | None => ""
  end.

(** ** The enumerators *)

Definition is_hidden_path (p : path) : bool := startswith "." (name p).

Definition iter_locale_dirs (root : path) : M (list path) :=
  e ← exists_ root;
  if negb e then ret []
  else
    ps ← iterdir root;
    m ← get_fs;
    ret (sorted_by_name
           (filter (λ p, is_dir m p && negb (is_hidden_path p) = true) ps)).

Definition is_png (m : fs) (p : path) : bool :=
  is_file m p && negb (is_hidden_path p) && bool_decide (lower (suffix p) = ".png").

Definition iter_png_files (folder : path) : M (list path) :=
  e ← exists_ folder;
  if negb e then ret []
  else
    ps ← iterdir folder;
    m ← get_fs;
    ret (sorted_by_name (filter (λ p, is_png m p = true) ps)).

(** ** The image library *)

(** What the script uses of PIL and imagehash.  [Image_open] fails on bytes
    that are no image, [convert_RGB] on pixel data that cannot be loaded;
    [scale n f] is [int(n * f)] for a float [f]; [phash] is the 8 x 8
    perceptual hash, flattened. *)
Class PIL : Type := {
  image : Type;
  float : Type;
  Image_open : list byte → option image;
  convert_RGB : image → option image;
  im_size : image → Z * Z;
  im_copy : image → image;
  scale : Z → float → Z;
  float_0_1 : float;
  float_0_02 : float;
  paste_black : image → Z * Z * Z * Z → image;
  phash : image → list bool;
  phash_length : ∀ im, length (phash im) = 64%nat
}.

Definition lift_opt {A} (e : exn) (o : option A) : M A :=
  match o with
  | Some a => ret a
  | None => raise e
  end.

(** Reading a file's bytes. *)
Definition read_bytes (p : path) : M (list byte) :=
  λ m, match m !! p with
       | Some (File c) => (m, inr c)
       | Some Dir => (m, inl IsADirectoryError)
       | None => (m, inl FileNotFoundError)
       end.

(** [ImageHash.__sub__]: the number of positions where two hashes differ. *)
Fixpoint count_diff (a b : list bool) : nat :=
  match a, b with
  | x :: a', y :: b' => (if Bool.eqb x y then 0 else 1) + count_diff a' b'
  | _, _ => 0
  end.

Definition hash_sub (a b : list bool) : M nat :=
  if bool_decide (length a = length b) then ret (count_diff a b)
  else raise TypeError.

(** ** Statistics *)

Record LocaleStats : Type := mkLocaleStats {
  locale : string;
  changed : nat;
  added : nat;
  removed : nat;
  removed_files : list string;
  missing_in_new : bool
}.

Record Totals : Type := mkTotals {
  totals_changed : nat;
  totals_added : nat;
  totals_removed : nat
}.

(** [LocaleStats(locale=l)]. *)
Definition new_stats (l : string) : LocaleStats := mkLocaleStats l 0 0 0 [] false.

Definition set_missing (st : LocaleStats) : LocaleStats :=
  mkLocaleStats (locale st) (changed st) (added st) (removed st)
                (removed_files st) true.

Definition incr_changed (st : LocaleStats) : LocaleStats :=
  mkLocaleStats (locale st) (changed st + 1) (added st) (removed st)
                (removed_files st) (missing_in_new st).

Definition incr_added (st : LocaleStats) : LocaleStats :=
  mkLocaleStats (locale st) (changed st) (added st + 1) (removed st)
                (removed_files st) (missing_in_new st).

Definition record_removed (s : string) (st : LocaleStats) : LocaleStats :=
  mkLocaleStats (locale st) (changed st) (added st) (removed st + 1)
                (removed_files st ++ [s]) (missing_in_new st).

(** ** Dictionaries keyed by file or folder name *)

(** [{p.name: p for p in l}]. *)
Definition dict_by_name (l : list path) : gmap string (list string) :=
  foldl (λ d p, <[name p := p]> d) ∅ l.

(** [d[k]]. *)
Definition getitem (d : gmap string (list string)) (k : string) : M path :=
  lift_opt KeyError (d !! k).

(** ** The reconciler *)

Definition copy_file (src dst : path) : M unit :=
  mkdir_p (parent dst) ;;
  copy2 src dst.

Definition remove_file (p : path) : M unit :=
  λ m, match unlink p m with
       | (m', inl FileNotFoundError) => (m', inr tt)
       | r => r
       end.

Section Sync.
Context `{!PIL}.
(** The module's two globals, which [main] overwrites. *)
Variables TOP_IGNORE_PCT LEFT_IGNORE_PCT : float.

(** [Image.open(p)]. *)
Definition Image_open_path (p : path) : M image :=
  c ← read_bytes p;
  lift_opt UnidentifiedImageError (Image_open c).

Definition masked_phash (p : path) : M (list bool) :=
  im0 ← Image_open_path p;
  im ← lift_opt OSError (convert_RGB im0);
  let '(w, h) := im_size im in
  let top := scale h TOP_IGNORE_PCT in
  let left := scale w LEFT_IGNORE_PCT in
  let masked := im_copy im in
  let masked := paste_black masked (scale w float_0_1, scale h float_0_02, left, top) in
  ret (phash masked).

Definition same_except_time (old_png new_png : path) : M bool :=
  a_im ← Image_open_path old_png;
  b_im ← Image_open_path new_png;
  if bool_decide (im_size a_im ≠ im_size b_im) then ret false
  else
    ha ← masked_phash old_png;
    hb ← masked_phash new_png;
    d ← hash_sub ha hb;
    ret (Nat.eqb d 0).

(** The three loops of [sync_locale]. *)
Definition sync_changed (old_files new_files : gmap string (list string))
    (name : string) (stats : LocaleStats) : M LocaleStats :=
  old_path ← getitem old_files name;
  new_path ← getitem new_files name;
  same ← same_except_time old_path new_path;
  if negb same then
    copy_file new_path old_path ;;
    ret (incr_changed stats)
  else ret stats.

Definition sync_removed (old_loc : path) (old_files : gmap string (list string))
    (n : string) (stats : LocaleStats) : M LocaleStats :=
  old_path ← getitem old_files n;
  remove_file old_path ;;
  ret (record_removed (name old_loc +:+ "/" +:+ n) stats).

Definition sync_added (old_loc : path) (new_files : gmap string (list string))
    (n : string) (stats : LocaleStats) : M LocaleStats :=
  new_path ← getitem new_files n;
  let dst := child old_loc n in
  copy_file new_path dst ;;
  ret (incr_added stats).

Definition sync_files (old_loc new_loc : path) (stats : LocaleStats) : M LocaleStats :=
  old_l ← iter_png_files old_loc;
  new_l ← iter_png_files new_loc;
  let old_files := dict_by_name old_l in
  let new_files := dict_by_name new_l in
  stats ← for_each (sorted (elements (dom old_files ∩ dom new_files)))
                   (sync_changed old_files new_files) stats;
  stats ← for_each (sorted (elements (dom old_files ∖ dom new_files)))
                   (sync_removed old_loc old_files) stats;
  for_each (sorted (elements (dom new_files ∖ dom old_files)))
           (sync_added old_loc new_files) stats.

Definition sync_locale (old_loc : path) (new_loc : option path) : M LocaleStats :=
  let stats := new_stats (name old_loc) in
  match new_loc with
  | None => ret (set_missing stats)
  | Some new_loc =>
      e ← exists_ new_loc;
      if negb e then ret (set_missing stats)
      else sync_files old_loc new_loc stats
  end.

(** The accumulators of [sync_all]. *)
Record acc : Type := mkAcc {
  stats_list : list LocaleStats;
  totals : Totals;
  warnings : list string
}.

Definition add_totals (st : LocaleStats) (t : Totals) : Totals :=
  mkTotals (totals_changed t + changed st) (totals_added t + added st)
           (totals_removed t + removed st).

Definition add_added (st : LocaleStats) (t : Totals) : Totals :=
  mkTotals (totals_changed t) (totals_added t + added st) (totals_removed t).

Definition sync_old_locale (old_locales new_locales : gmap string (list string))
    (locale : string) (a : acc) : M acc :=
  old_loc ← getitem old_locales locale;
  let new_loc := new_locales !! locale in
  st ← sync_locale old_loc new_loc;
  let stats_list := stats_list a ++ [st] in
  let totals := add_totals st (totals a) in
  let warnings :=
    if missing_in_new st
    then warnings a ++ ["Locale folder missing in NEW (kept as-is): " +:+ locale]
    else warnings a in
  ret (mkAcc stats_list totals warnings).

Definition copy_png (old_loc : path) (png : path) (st : LocaleStats) : M LocaleStats :=
  copy_file png (child old_loc (name png)) ;;
  ret (incr_added st).

Definition sync_new_locale (old_root : path) (new_locales : gmap string (list string))
    (locale : string) (a : acc) : M acc :=
  new_loc ← getitem new_locales locale;
  let old_loc := child old_root locale in
  mkdir_p old_loc ;;
  let st := new_stats locale in
  pngs ← iter_png_files new_loc;
  st ← for_each pngs (copy_png old_loc) st;
  ret (mkAcc (stats_list a ++ [st]) (add_added st (totals a)) (warnings a)).

Definition sync_all (old_root new_root : path) : M (list LocaleStats * Totals * list string) :=
  old_l ← iter_locale_dirs old_root;
  new_l ← iter_locale_dirs new_root;
  let old_locales := dict_by_name old_l in
  let new_locales := dict_by_name new_l in
  let a := mkAcc [] (mkTotals 0 0 0) [] in
  a ← for_each (sorted (elements (dom old_locales)))
               (sync_old_locale old_locales new_locales) a;
  a ← for_each (sorted (elements (dom new_locales ∖ dom old_locales)))
               (sync_new_locale old_root new_locales) a;
  let removed_list := concat (map removed_files (stats_list a)) in
  ret (stats_list a, totals a, warnings a).

End Sync.

(** ** A small image library for the examples *)

(** Images are their bytes; the first byte decides the hash, an empty file
    is no image and a leading [xff] marks pixel data that cannot be
    loaded. *)
Definition toy_phash (im : list byte) : list bool :=
  map (λ i, N.testbit (Byte.to_N (hd x00 im)) (N.of_nat i)) (seq 0 64).

Definition toy_open (c : list byte) : option (list byte) :=
  match c with
  | [] => None
  | _ => Some c
  end.

Definition toy_convert (im : list byte) : option (list byte) :=
  match im with
  | xff :: _ => None
  | _ => Some im
  end.

Lemma toy_phash_length im : length (toy_phash im) = 64%nat.
Proof. reflexivity. Qed.

Definition toy_PIL : PIL := {|
  image := list byte;
  float := unit;
  Image_open := toy_open;
  convert_RGB := toy_convert;
  im_size im := (Z.of_nat (length im), 1%Z);
  im_copy im := im;
  scale n f := 0%Z;
  float_0_1 := tt;
  float_0_02 := tt;
  paste_black im box := im;
  phash := toy_phash;
  phash_length := toy_phash_length
|}.

(** * Facts about the model *)

(** ** The order on names *)

Lemma string_leb_trans a b c :
  String.leb a b = true → String.leb b c = true → String.leb a c = true.
Proof.
  unfold String.leb. revert b c.
  induction a as [|x a IH]; intros [|y b] [|z c]; simpl; try done.
  unfold Ascii.compare.
  destruct (N.compare_spec (N_of_ascii x) (N_of_ascii y)) as [Hxy|Hxy|Hxy];
    destruct (N.compare_spec (N_of_ascii y) (N_of_ascii z)) as [Hyz|Hyz|Hyz];
    try done.
  - rewrite Hxy, Hyz, N.compare_refl. apply IH.
  - intros _ _. rewrite Hxy. by apply N.compare_lt_iff in Hyz as ->.
  - intros _ _. rewrite <- Hyz. by apply N.compare_lt_iff in Hxy as ->.
  - intros _ _. assert (N_of_ascii x < N_of_ascii z)%N as H by lia.
    by apply N.compare_lt_iff in H as ->.
Qed.

#[global] Instance str_le_trans : Transitive str_le.
Proof. intros a b c. apply string_leb_trans. Qed.

#[global] Instance str_le_total : Total str_le.
Proof. intros a b. apply String.leb_total. Qed.

#[global] Instance str_le_antisymm : AntiSymm (=) str_le.
Proof. intros a b. apply String.leb_antisym. Qed.

#[global] Instance name_le_trans : Transitive name_le.
Proof. intros a b c. apply string_leb_trans. Qed.

#[global] Instance name_le_total : Total name_le.
Proof. intros a b. apply String.leb_total. Qed.

Lemma sorted_perm l : sorted l ≡ₚ l.
Proof. apply merge_sort_Permutation. Qed.

Lemma sorted_strongly l : StronglySorted str_le (sorted l).
Proof. apply StronglySorted_merge_sort; apply _. Qed.

Lemma elem_of_sorted x l : x ∈ sorted l ↔ x ∈ l.
Proof. by rewrite sorted_perm. Qed.

Lemma NoDup_sorted l : NoDup l → NoDup (sorted l).
Proof. by rewrite sorted_perm. Qed.

Lemma length_sorted l : length (sorted l) = length l.
Proof. by rewrite sorted_perm. Qed.

(** Two strictly sorted lists with the same elements are the same list. *)
Lemma strongly_sorted_ext (l k : list string) :
  StronglySorted str_le l → StronglySorted str_le k →
  NoDup l → NoDup k → (∀ x, x ∈ l ↔ x ∈ k) → l = k.
Proof.
  intros Hl Hk Dl Dk Hlk.
  apply (StronglySorted_unique str_le); [done..|].
  by apply NoDup_Permutation.
Qed.

Lemma sorted_ext l k :
  NoDup l → NoDup k → (∀ x, x ∈ l ↔ x ∈ k) → sorted l = sorted k.
Proof.
  intros Dl Dk Hlk. apply strongly_sorted_ext;
    auto using sorted_strongly, NoDup_sorted.
  intros x. by rewrite !elem_of_sorted.
Qed.

Lemma elem_of_sorted_elements (X : gset string) x : x ∈ sorted (elements X) ↔ x ∈ X.
Proof. by rewrite elem_of_sorted, elem_of_elements. Qed.

Lemma NoDup_sorted_elements (X : gset string) : NoDup (sorted (elements X)).
Proof. apply NoDup_sorted, NoDup_elements. Qed.

Lemma length_sorted_elements (X : gset string) : length (sorted (elements X)) = size X.
Proof. by rewrite length_sorted. Qed.

Lemma sorted_elements_empty (X : gset string) : X = ∅ → sorted (elements X) = [].
Proof. intros ->. by rewrite elements_empty. Qed.

(** ** Directory listings *)

Lemma is_child_of_spec d p : is_child_of d p = true ↔ ∃ n, p = n :: d.
Proof.
  destruct p as [|n d']; simpl.
  - split; [done|]. by intros [? ?].
  - rewrite bool_decide_eq_true. split; [intros ->; eauto|]. by intros [? [= _ ->]].
Qed.

Lemma elem_of_children m d p :
  p ∈ children m d ↔ ∃ n, p = n :: d ∧ is_Some (m !! p).
Proof.
  unfold children. rewrite list_elem_of_filter, is_child_of_spec.
  assert (p ∈ map fst (map_to_list m) ↔ is_Some (m !! p)) as ->.
  { change (map fst (map_to_list m)) with ((map_to_list m).*1).
    rewrite list_elem_of_fmap. split.
    - intros [[q x] [-> Hq]]. apply elem_of_map_to_list in Hq. by exists x.
    - intros [x Hx]. exists (p, x). split; [done|]. by apply elem_of_map_to_list. }
  naive_solver.
Qed.

Lemma NoDup_children m d : NoDup (children m d).
Proof. apply NoDup_filter, (NoDup_fst_map_to_list m). Qed.

(** The sorted names of the entries of [d] that [sel] keeps. *)
Definition listing (sel : path → bool) (m : fs) (d : path) : list string :=
  name <$> sorted_by_name (filter (λ p, sel p = true) (children m d)).

Section Listing.
Context (sel : path → bool) (m : fs) (d : path).

Let kept := filter (λ p, sel p = true) (children m d).

Lemma kept_children p : p ∈ sorted_by_name kept → ∃ n, p = n :: d.
Proof.
  unfold sorted_by_name. rewrite merge_sort_Permutation.
  unfold kept. rewrite list_elem_of_filter, elem_of_children. naive_solver.
Qed.

Lemma listing_paths :
  sorted_by_name kept = child d <$> listing sel m d.
Proof.
  unfold listing. fold kept. rewrite <- list_fmap_compose.
  rewrite <- (list_fmap_id (sorted_by_name kept)) at 1.
  apply Forall_fmap_ext, Forall_forall. intros p Hp.
  apply kept_children in Hp as [n ->]. done.
Qed.

Lemma elem_of_listing n :
  n ∈ listing sel m d ↔ sel (n :: d) = true ∧ is_Some (m !! (n :: d)).
Proof.
  unfold listing. rewrite list_elem_of_fmap. split.
  - intros [p [-> Hp]]. pose proof (kept_children _ Hp) as [n' ->]. simpl.
    unfold sorted_by_name in Hp. rewrite merge_sort_Permutation in Hp.
    apply list_elem_of_filter in Hp as [? Hp].
    apply elem_of_children in Hp as [? [[= <-] ?]]. done.
  - intros [Hs Hm]. exists (n :: d). split; [done|].
    unfold sorted_by_name. rewrite merge_sort_Permutation.
    apply list_elem_of_filter. split; [done|]. apply elem_of_children. eauto.
Qed.

Lemma NoDup_listing : NoDup (listing sel m d).
Proof.
  unfold listing. apply NoDup_fmap_2_strong.
  - intros p q Hp Hq. apply kept_children in Hp as [n ->].
    apply kept_children in Hq as [n' ->]. simpl. by intros ->.
  - unfold sorted_by_name. rewrite merge_sort_Permutation.
    apply NoDup_filter, NoDup_children.
Qed.

Lemma listing_strongly : StronglySorted str_le (listing sel m d).
Proof.
  unfold listing. apply (StronglySorted_fmap _ name_le); [done|].
  apply StronglySorted_merge_sort; apply _.
Qed.
End Listing.

Lemma listing_ext sel m d sel' m' d' :
  (∀ n, sel (n :: d) = true ∧ is_Some (m !! (n :: d))
        ↔ sel' (n :: d') = true ∧ is_Some (m' !! (n :: d'))) →
  listing sel m d = listing sel' m' d'.
Proof.
  intros H. apply strongly_sorted_ext;
    auto using listing_strongly, NoDup_listing.
  intros n. by rewrite !elem_of_listing.
Qed.

(** The names [iter_png_files] and [iter_locale_dirs] return. *)
Definition png_names (m : fs) (d : path) : list string :=
  listing (is_png m) m d.

Definition is_locale (m : fs) (p : path) : bool :=
  is_dir m p && negb (is_hidden_path p).

Definition locale_names (m : fs) (d : path) : list string :=
  listing (is_locale m) m d.

(** A name is eligible when it is not hidden and ends in [.png], whatever
    the case. *)
Definition eligible (n : string) : bool :=
  negb (startswith "." n) && bool_decide (lower (suffix [n]) = ".png").

Lemma is_png_spec m n d :
  is_png m (n :: d) = true ↔ eligible n = true ∧ ∃ c, m !! (n :: d) = Some (File c).
Proof.
  unfold is_png, eligible, is_file, is_hidden_path, suffix. simpl.
  rewrite !andb_true_iff.
  destruct (m !! (n :: d)) as [[c|]|]; split.
  - intros [[_ ?] ?]. eauto.
  - intros [[? ?] _]. repeat split; auto.
  - by intros [[? _] _].
  - by intros [_ [? ?]].
  - by intros [[? _] _].
  - by intros [_ [? ?]].
Qed.

Lemma elem_of_png_names m d n :
  n ∈ png_names m d ↔ eligible n = true ∧ ∃ c, m !! (n :: d) = Some (File c).
Proof.
  unfold png_names. rewrite elem_of_listing, is_png_spec.
  split; [naive_solver|]. intros [? [c Hc]]. rewrite Hc. eauto.
Qed.

Lemma is_locale_spec m n d :
  is_locale m (n :: d) = true ↔ startswith "." n = false ∧ m !! (n :: d) = Some Dir.
Proof.
  unfold is_locale, is_dir, is_hidden_path. simpl.
  rewrite andb_true_iff, negb_true_iff.
  destruct (m !! (n :: d)) as [[c|]|]; split; intros [? ?]; done.
Qed.

Lemma elem_of_locale_names m d n :
  n ∈ locale_names m d ↔ startswith "." n = false ∧ m !! (n :: d) = Some Dir.
Proof.
  unfold locale_names. rewrite elem_of_listing, is_locale_spec.
  split; [naive_solver|]. intros [? Hc]. rewrite Hc. eauto.
Qed.

Lemma png_names_ext m d m' d' :
  (∀ n, eligible n = true → is_file m (n :: d) = is_file m' (n :: d')) →
  png_names m d = png_names m' d'.
Proof.
  intros H. apply strongly_sorted_ext;
    [apply listing_strongly|apply listing_strongly|apply NoDup_listing|apply NoDup_listing|].
  intros n. rewrite !elem_of_png_names.
  split; intros [He [c Hc]]; (split; [done|]); specialize (H n He);
    unfold is_file in H; rewrite Hc in H.
  - destruct (m' !! (n :: d')) as [[?|]|]; try done. eauto.
  - destruct (m !! (n :: d)) as [[?|]|]; try done. eauto.
Qed.

Lemma locale_names_ext m d m' d' :
  (∀ n, startswith "." n = false → is_dir m (n :: d) = is_dir m' (n :: d')) →
  locale_names m d = locale_names m' d'.
Proof.
  intros H. apply strongly_sorted_ext;
    [apply listing_strongly|apply listing_strongly|apply NoDup_listing|apply NoDup_listing|].
  intros n. rewrite !elem_of_locale_names.
  split; intros [He Hc]; (split; [done|]); specialize (H n He);
    unfold is_dir in H; rewrite Hc in H.
  - by destruct (m' !! (n :: d')) as [[?|]|].
  - by destruct (m !! (n :: d)) as [[?|]|].
Qed.

(** ** Running computations *)

Lemma bind_run {A B} (c : M A) (k : A → M B) m :
  (c ≫= k) m = match c m with
               | (m', inr a) => k a m'
               | (m', inl e) => (m', inl e)
               end.
Proof. reflexivity. Qed.

Lemma ret_run {A} (a : A) m : ret a m = (m, inr a).
Proof. reflexivity. Qed.

Lemma exists_run p m : exists_ p m = (m, inr (bool_decide (is_Some (m !! p)))).
Proof. reflexivity. Qed.

Lemma iter_png_files_run folder m :
  iter_png_files folder m =
  match m !! folder with
  | None => (m, inr [])
  | Some Dir => (m, inr (child folder <$> png_names m folder))
  | Some (File _) => (m, inl NotADirectoryError)
  end.
Proof.
  unfold iter_png_files. rewrite bind_run, exists_run.
  destruct (m !! folder) as [[c|]|] eqn:E.
  - rewrite bool_decide_true by eauto. simpl. rewrite bind_run. unfold iterdir. by rewrite E.
  - rewrite bool_decide_true by eauto. simpl. rewrite bind_run. unfold iterdir. rewrite E.
    rewrite bind_run. unfold get_fs. rewrite ret_run. do 2 f_equal.
    apply (listing_paths (is_png m)).
  - rewrite bool_decide_false by (by intros [? ?]). done.
Qed.

Lemma iter_locale_dirs_run root m :
  iter_locale_dirs root m =
  match m !! root with
  | None => (m, inr [])
  | Some Dir => (m, inr (child root <$> locale_names m root))
  | Some (File _) => (m, inl NotADirectoryError)
  end.
Proof.
  unfold iter_locale_dirs. rewrite bind_run, exists_run.
  destruct (m !! root) as [[c|]|] eqn:E.
  - rewrite bool_decide_true by eauto. simpl. rewrite bind_run. unfold iterdir. by rewrite E.
  - rewrite bool_decide_true by eauto. simpl. rewrite bind_run. unfold iterdir. rewrite E.
    rewrite bind_run. unfold get_fs. rewrite ret_run. do 2 f_equal.
    apply (listing_paths (is_locale m)).
  - rewrite bool_decide_false by (by intros [? ?]). done.
Qed.

(** ** Dictionaries by name *)

Lemma dict_by_name_snoc l p : dict_by_name (l ++ [p]) = <[name p := p]> (dict_by_name l).
Proof. unfold dict_by_name. by rewrite foldl_app. Qed.

Lemma dict_by_name_lookup d (l : list string) n :
  dict_by_name (child d <$> l) !! n = if decide (n ∈ l) then Some (n :: d) else None.
Proof.
  induction l as [|x l IH] using rev_ind.
  - rewrite decide_False by apply not_elem_of_nil. apply lookup_empty.
  - rewrite fmap_app. simpl. rewrite dict_by_name_snoc. simpl.
    destruct (decide (x = n)) as [->|Hne].
    + rewrite lookup_insert_eq. rewrite decide_True; [done|]. set_solver.
    + rewrite lookup_insert_ne by done. rewrite IH.
      repeat case_decide; set_solver.
Qed.

Lemma dict_by_name_dom d (l : list string) :
  dom (dict_by_name (child d <$> l)) = list_to_set l.
Proof.
  apply set_eq. intros n. rewrite elem_of_dom, dict_by_name_lookup, elem_of_list_to_set.
  case_decide; split; try done; try (by intros [? ?]); eauto.
Qed.

Lemma getitem_run d (l : list string) n m :
  n ∈ l → getitem (dict_by_name (child d <$> l)) n m = (m, inr (n :: d)).
Proof.
  intros Hn. unfold getitem. rewrite dict_by_name_lookup, decide_True by done. done.
Qed.

Lemma listing_elem_png m d n :
  n ∈ png_names m d ↔
  ∃ c, m !! (n :: d) = Some (File c) ∧ startswith "." n = false
       ∧ lower (suffix (n :: d)) = ".png".
Proof.
  rewrite elem_of_png_names. unfold eligible, suffix. simpl.
  rewrite andb_true_iff, negb_true_iff, bool_decide_eq_true. naive_solver.
Qed.

(** * The specification *)

(** ** The enumerators *)

(** C5 (amended): the enumerators return the empty list for a path that
    does not exist; for a directory they return exactly its entries that
    qualify (sub-directories not starting with a dot; regular files not
    starting with a dot whose suffix is [.png] in any case), in strictly
    ascending order of name; a path that is a regular file raises
    [NotADirectoryError]. *)
Theorem enumerators_contract (root : path) (m : fs) :
  (m !! root = None →
     iter_locale_dirs root m = (m, inr []) ∧ iter_png_files root m = (m, inr [])) ∧
  (m !! root = Some Dir →
     ∃ ls ps,
       iter_locale_dirs root m = (m, inr ls) ∧
       iter_png_files root m = (m, inr ps) ∧
       StronglySorted name_le ls ∧ NoDup (name <$> ls) ∧
       StronglySorted name_le ps ∧ NoDup (name <$> ps) ∧
       (∀ p, p ∈ ls ↔
          ∃ n, p = n :: root ∧ m !! p = Some Dir ∧ startswith "." n = false) ∧
       (∀ p, p ∈ ps ↔
          ∃ n c, p = n :: root ∧ m !! p = Some (File c) ∧
                 startswith "." n = false ∧ lower (suffix p) = ".png")) ∧
  (∀ c, m !! root = Some (File c) →
     iter_locale_dirs root m = (m, inl NotADirectoryError) ∧
     iter_png_files root m = (m, inl NotADirectoryError)).
Proof.
  rewrite iter_locale_dirs_run, iter_png_files_run.
  split; [|split].
  - by intros ->.
  - intros ->. eexists _, _. split; [done|]. split; [done|].
    assert (∀ l : list string,
              StronglySorted str_le l → StronglySorted name_le (child root <$> l)) as Hs.
    { intros l. apply StronglySorted_fmap. done. }
    assert (∀ l : list string, name <$> (child root <$> l) = l) as Hn.
    { intros l. rewrite <- list_fmap_compose. apply list_fmap_id. }
    split; [apply Hs, listing_strongly|].
    split; [rewrite Hn; apply NoDup_listing|].
    split; [apply Hs, listing_strongly|].
    split; [rewrite Hn; apply NoDup_listing|].
    split; intros p; rewrite list_elem_of_fmap.
    + split.
      * intros [n [-> Hin]]. apply elem_of_locale_names in Hin as [? ?]. eauto.
      * intros [n [-> [? ?]]]. exists n. split; [done|].
        by apply elem_of_locale_names.
    + split.
      * intros [n [-> Hin]]. apply listing_elem_png in Hin. naive_solver.
      * intros [n [c [-> H]]]. exists n. split; [done|].
        apply listing_elem_png. naive_solver.
  - by intros c ->.
Qed.

(** C5, as stated, fails for a root that is a regular file: the root
    exists, and both enumerators raise instead of returning a list. *)
Lemma enumerators_file_root :
  let m : fs := {[ ["notes.txt"] := File [] ]} in
  m !! ["notes.txt"] ≠ None ∧
  iter_locale_dirs ["notes.txt"] m = (m, inl NotADirectoryError) ∧
  iter_png_files ["notes.txt"] m = (m, inl NotADirectoryError).
Proof. split; [done|]. split; vm_compute; reflexivity. Qed.

(** ** Deleting a file that is already gone *)



(** ** The image comparison *)

Section Oracle.
Context `{!PIL}.
Variables TOP_IGNORE_PCT LEFT_IGNORE_PCT : float.

(** The copy of [im] with the clock rectangle painted black. *)
Definition masked (im : image) : image :=
  let '(w, h) := im_size im in
  paste_black (im_copy im)
    (scale w float_0_1, scale h float_0_02,
     scale w LEFT_IGNORE_PCT, scale h TOP_IGNORE_PCT).

Lemma Image_open_path_run p m c :
  m !! p = Some (File c) →
  Image_open_path p m =
  match Image_open c with
  | Some im => (m, inr im)
  | None => (m, inl UnidentifiedImageError)
  end.
Proof.
  intros Hp. unfold Image_open_path. rewrite bind_run. unfold read_bytes.
  rewrite Hp. by destruct (Image_open c).
Qed.

Lemma masked_phash_run p m c im rgb :
  m !! p = Some (File c) → Image_open c = Some im → convert_RGB im = Some rgb →
  masked_phash TOP_IGNORE_PCT LEFT_IGNORE_PCT p m = (m, inr (phash (masked rgb))).
Proof.
  intros Hp Ho Hc. unfold masked_phash. rewrite bind_run.
  rewrite (Image_open_path_run _ _ _ Hp), Ho. rewrite bind_run, Hc. simpl.
  unfold masked. by destruct (im_size rgb).
Qed.

Lemma count_diff_refl h : count_diff h h = 0.
Proof. induction h as [|[] h IH]; simpl; auto. Qed.

Lemma hash_sub_run im1 im2 m :
  hash_sub (phash im1) (phash im2) m = (m, inr (count_diff (phash im1) (phash im2))).
Proof.
  unfold hash_sub. rewrite bool_decide_true; [done|]. by rewrite !phash_length.
Qed.

(** C4: for two files that hold images, different sizes give [False]
    whether or not the pixel data can be loaded and hashed; with equal
    sizes the result is [True] exactly when the hashes of the two masked
    images differ in no position. *)
Theorem same_except_time_contract (old_png new_png : path) (m : fs)
    (a b : list byte) (a_im b_im : image) :
  m !! old_png = Some (File a) → m !! new_png = Some (File b) →
  Image_open a = Some a_im → Image_open b = Some b_im →
  (im_size a_im ≠ im_size b_im →
     same_except_time TOP_IGNORE_PCT LEFT_IGNORE_PCT old_png new_png m = (m, inr false)) ∧
  (im_size a_im = im_size b_im →
     ∀ a_rgb b_rgb, convert_RGB a_im = Some a_rgb → convert_RGB b_im = Some b_rgb →
     ∃ r, same_except_time TOP_IGNORE_PCT LEFT_IGNORE_PCT old_png new_png m = (m, inr r) ∧
          (r = true ↔ count_diff (phash (masked a_rgb)) (phash (masked b_rgb)) = 0)).
Proof.
  intros Ho Hn Ha Hb. unfold same_except_time.
  rewrite bind_run, (Image_open_path_run _ _ _ Ho), Ha.
  rewrite bind_run, (Image_open_path_run _ _ _ Hn), Hb.
  split.
  - intros Hne. by rewrite bool_decide_true.
  - intros Heq a_rgb b_rgb Hca Hcb. rewrite bool_decide_false by auto.
    rewrite bind_run, (masked_phash_run _ _ _ _ _ Ho Ha Hca).
    rewrite bind_run, (masked_phash_run _ _ _ _ _ Hn Hb Hcb).
    rewrite bind_run, hash_sub_run. eexists. split; [done|].
    apply Nat.eqb_eq.
Qed.
End Oracle.

Lemma same_except_time_contract_witness :
  let m : fs := {[ ["a.png"] := File [x01; x02]; ["b.png"] := File [x01; x03] ]} in
  ∃ r, same_except_time (H:=toy_PIL) tt tt ["a.png"] ["b.png"] m = (m, inr r).
Proof.
  intros m.
  destruct (same_except_time_contract (H:=toy_PIL) tt tt ["a.png"] ["b.png"] m
              [x01; x02] [x01; x03] [x01; x02] [x01; x03]) as [_ H];
    [reflexivity..|].
  destruct (H eq_refl [x01; x02] [x01; x03]) as [r [Hr _]]; [reflexivity..|].
  by exists r.
Defined.

(** ** What a run may write *)


Definition reads_only {A} (c : M A) : Prop := ∀ m, (c m).1 = m.

Section Frame.
Context (r : path) (W : path → Prop) (HWr : ¬ W r).



End Frame.



Lemma reads_only_ret {A} (a : A) : reads_only (ret a).
Proof. done. Qed.



Lemma reads_only_iter_png_files d : reads_only (iter_png_files d).
Proof. intros m. rewrite iter_png_files_run. by destruct (m !! d) as [[?|]|]. Qed.

Lemma reads_only_iter_locale_dirs d : reads_only (iter_locale_dirs d).
Proof. intros m. rewrite iter_locale_dirs_run. by destruct (m !! d) as [[?|]|]. Qed.



Section FrameSync.
Context `{!PIL}.
Variables TOP_IGNORE_PCT LEFT_IGNORE_PCT : float.



End FrameSync.


Lemma copy2_writes src dst m p :
  p ≠ dst → p ≠ name src :: dst → (copy2 src dst m).1 !! p = m !! p.
Proof.
  intros H1 H2. unfold copy2.
  set (dst' := if is_dir m dst then child dst (name src) else dst).
  assert (p ≠ dst') as H3. { unfold dst', child. by destruct (is_dir m dst). }
  case_match; [done|].
  destruct (m !! src) as [[c|]|]; [|done..].
  destruct (m !! dst') as [[?|]|]; [|done|];
    (destruct (m !! parent dst') as [[?|]|]; [done| |done]);
    simpl; by rewrite lookup_insert_ne.
Qed.


Lemma mkdir_p_dir d m : m !! d = Some Dir → mkdir_p d m = (m, inr tt).
Proof. intros Hd. destruct d; simpl; by rewrite Hd. Qed.

Lemma copy_file_run src x d m :
  m !! d = Some Dir → copy_file src (x :: d) m = copy2 src (x :: d) m.
Proof.
  intros Hd. unfold copy_file. rewrite bind_run. simpl parent.
  by rewrite mkdir_p_dir.
Qed.

Lemma copy_file_writes src x d m p :
  m !! d = Some Dir → p ≠ x :: d → p ≠ name src :: x :: d →
  (copy_file src (x :: d) m).1 !! p = m !! p.
Proof.
  intros Hd H1 H2. rewrite copy_file_run by done. by apply copy2_writes.
Qed.






Section FrameLocale.
Context `{!PIL}.
Variables TOP_IGNORE_PCT LEFT_IGNORE_PCT : float.
Context (r : path) (L : string).














End FrameLocale.

Section FrameAll.
Context `{!PIL}.
Variables TOP_IGNORE_PCT LEFT_IGNORE_PCT : float.


End FrameAll.

(** ** Inverting successful runs *)


Lemma bind_inr {A B} (c : M A) (k : A → M B) m m' b :
  (c ≫= k) m = (m', inr b) → ∃ m1 a, c m = (m1, inr a) ∧ k a m1 = (m', inr b).
Proof.
  rewrite bind_run. destruct (c m) as [m1 [e|a]]; [done|]. eauto.
Qed.

Lemma ret_inr {A} (a b : A) m m' : ret a m = (m', inr b) → m' = m ∧ b = a.
Proof. by intros [= -> ->]. Qed.

Lemma for_each_inv {A S} (I : S → Prop) (l : list A) (body : A → S → M S) :
  (∀ x s m m' s', x ∈ l → I s → body x s m = (m', inr s') → I s') →
  ∀ s m m' s', I s → for_each l body s m = (m', inr s') → I s'.
Proof.
  induction l as [|x l IH]; intros Hb s m m' s' Hs.
  - by intros [-> ->]%ret_inr.
  - simpl. intros (m1 & s1 & H1 & H2)%bind_inr.
    eapply IH; [|eapply Hb; [left|done..]|done].
    intros y ? ? ? ? Hy. apply Hb. by right.
Qed.


(** ** The new tree is read-only *)

Section Frames.
Context `{!PIL}.
Variables TOP_IGNORE_PCT LEFT_IGNORE_PCT : float.

End Frames.



(** ** A locale that the new tree lacks *)

Section MissingInNew.
Context `{!PIL}.
Variables TOP_IGNORE_PCT LEFT_IGNORE_PCT : float.

Definition missing_warning (L : string) : string :=
  "Locale folder missing in NEW (kept as-is): " +:+ L.


Lemma sync_old_locale_inr O N L a m m' a' :
  sync_old_locale TOP_IGNORE_PCT LEFT_IGNORE_PCT O N L a m = (m', inr a') →
  ∃ old_loc m1 st,
    O !! L = Some old_loc ∧
    sync_locale TOP_IGNORE_PCT LEFT_IGNORE_PCT old_loc (N !! L) m = (m', inr st) ∧
    stats_list a' = stats_list a ++ [st] ∧
    totals a' = add_totals st (totals a) ∧
    warnings a' = (if missing_in_new st
                   then warnings a ++ [missing_warning L] else warnings a) ∧
    m1 = m.
Proof.
  unfold sync_old_locale. intros (m1 & old_loc & H1 & H2)%bind_inr.
  unfold getitem in H1. destruct (O !! L) as [p|] eqn:E; [|done].
  apply ret_inr in H1 as [-> ->].
  apply bind_inr in H2 as (m2 & st & H2 & H3).
  apply ret_inr in H3 as [-> ->]. by exists p, m, st.
Qed.

End MissingInNew.


(** ** The statistics *)

Lemma for_each_count {A S} (f : S → nat) (l : list A) (body : A → S → M S) :
  (∀ x s m m' s', x ∈ l → body x s m = (m', inr s') → f s' = f s + 1) →
  ∀ s m m' s', for_each l body s m = (m', inr s') → f s' = f s + length l.
Proof.
  induction l as [|x l IH]; intros Hb s m m' s'.
  - intros [-> ->]%ret_inr. simpl. lia.
  - simpl. intros (m1 & s1 & H1 & H2)%bind_inr.
    apply Hb in H1; [|left]. apply IH in H2; [lia|].
    intros y ? ? ? ? Hy. apply Hb. by right.
Qed.

Lemma for_each_inr_nil {A S} (body : A → S → M S) s m :
  for_each [] body s m = (m, inr s).
Proof. done. Qed.

(** What holds of the statistics of a locale that both trees have. *)
Definition stats_ok (l : string) (st : LocaleStats) : Prop :=
  locale st = l ∧ missing_in_new st = false ∧
  removed st = length (removed_files st) ∧
  Forall (λ s, ∃ n, s = l +:+ "/" +:+ n) (removed_files st).

Section Stats.
Context `{!PIL}.
Variables TOP_IGNORE_PCT LEFT_IGNORE_PCT : float.

Lemma sync_changed_inr O N n st m m' st' :
  sync_changed TOP_IGNORE_PCT LEFT_IGNORE_PCT O N n st m = (m', inr st') →
  st' = st ∨ st' = incr_changed st.
Proof.
  unfold sync_changed. intros (? & ? & _ & Hb)%bind_inr.
  apply bind_inr in Hb as (? & ? & _ & Hb).
  apply bind_inr in Hb as (? & same & _ & Hb).
  destruct same; simpl in Hb.
  - apply ret_inr in Hb as [_ ->]. by left.
  - apply bind_inr in Hb as (? & ? & _ & Hb). apply ret_inr in Hb as [_ ->]. by right.
Qed.

Lemma sync_removed_inr old_loc O n st m m' st' :
  sync_removed old_loc O n st m = (m', inr st') →
  st' = record_removed (name old_loc +:+ "/" +:+ n) st.
Proof.
  unfold sync_removed. intros (? & ? & _ & Hb)%bind_inr.
  apply bind_inr in Hb as (? & ? & _ & Hb). by apply ret_inr in Hb as [_ ->].
Qed.

Lemma sync_added_inr old_loc N n st m m' st' :
  sync_added old_loc N n st m = (m', inr st') → st' = incr_added st.
Proof.
  unfold sync_added. intros (? & ? & _ & Hb)%bind_inr.
  apply bind_inr in Hb as (? & ? & _ & Hb). by apply ret_inr in Hb as [_ ->].
Qed.

Lemma copy_png_inr old_loc png st m m' st' :
  copy_png old_loc png st m = (m', inr st') → st' = incr_added st.
Proof.
  unfold copy_png. intros (? & ? & _ & Hb)%bind_inr. by apply ret_inr in Hb as [_ ->].
Qed.

Lemma sync_files_stats old_loc new_loc st m m' st' :
  stats_ok (name old_loc) st →
  sync_files TOP_IGNORE_PCT LEFT_IGNORE_PCT old_loc new_loc st m = (m', inr st') →
  stats_ok (name old_loc) st'.
Proof.
  intros Hst. unfold sync_files. intros (? & old_l & _ & Hb)%bind_inr.
  apply bind_inr in Hb as (? & new_l & _ & Hb).
  apply bind_inr in Hb as (? & st1 & H1 & Hb).
  apply bind_inr in Hb as (? & st2 & H2 & H3).
  assert (stats_ok (name old_loc) st1) as Hst1.
  { revert Hst H1. apply for_each_inv.
    intros n s ? ? s' _ Hs [->| ->]%sync_changed_inr; [done|].
    by destruct Hs as (? & ? & ? & ?). }
  assert (stats_ok (name old_loc) st2) as Hst2.
  { revert Hst1 H2. apply for_each_inv.
    intros n s ? ? s' _ (? & ? & Hlen & Hall) ->%sync_removed_inr.
    repeat split; simpl; try done.
    - rewrite length_app. simpl. lia.
    - apply Forall_app. split; [done|]. apply Forall_singleton. eauto. }
  revert Hst2 H3. apply for_each_inv.
  intros n s ? ? s' _ Hs ->%sync_added_inr. by destruct Hs as (? & ? & ? & ?).
Qed.

Lemma sync_locale_stats old_loc new_loc m m' st :
  sync_locale TOP_IGNORE_PCT LEFT_IGNORE_PCT old_loc new_loc m = (m', inr st) →
  st = set_missing (new_stats (name old_loc)) ∨ stats_ok (name old_loc) st.
Proof.
  unfold sync_locale. destruct new_loc as [new_loc|].
  - intros (? & e & _ & Hb)%bind_inr. destruct e; simpl in Hb.
    + right. revert Hb. apply sync_files_stats. repeat split. by apply Forall_nil.
    + apply ret_inr in Hb as [_ ->]. by left.
  - intros [_ ->]%ret_inr. by left.
Qed.

Lemma sync_new_locale_inr r N L a m m' a' :
  sync_new_locale r N L a m = (m', inr a') →
  ∃ new_loc m1 pngs st,
    N !! L = Some new_loc ∧
    mkdir_p (L :: r) m = (m1, inr tt) ∧
    iter_png_files new_loc m1 = (m1, inr pngs) ∧
    for_each pngs (copy_png (L :: r)) (new_stats L) m1 = (m', inr st) ∧
    a' = mkAcc (stats_list a ++ [st]) (add_added st (totals a)) (warnings a).
Proof.
  unfold sync_new_locale. intros (m0 & new_loc & H0 & Hb)%bind_inr.
  unfold getitem in H0. destruct (N !! L) as [p|] eqn:E; [|done].
  apply ret_inr in H0 as [-> ->].
  apply bind_inr in Hb as (m1 & [] & H1 & Hb).
  apply bind_inr in Hb as (m2 & pngs & H2 & Hb).
  pose proof (reads_only_iter_png_files p m1) as Hro. rewrite H2 in Hro.
  simpl in Hro. subst m2.
  apply bind_inr in Hb as (m3 & st & H3 & Hb).
  apply ret_inr in Hb as [-> ->]. by exists p, m1, pngs, st.
Qed.

Lemma copy_png_loop_stats old_loc L pngs m m' st :
  for_each pngs (copy_png old_loc) (new_stats L) m = (m', inr st) →
  st = mkLocaleStats L 0 (length pngs) 0 [] false.
Proof.
  intros Hrun.
  assert (added st = added (new_stats L) + length pngs) as Hadd.
  { revert Hrun. apply for_each_count. by intros ? ? ? ? ? _ ->%copy_png_inr. }
  assert (locale st = L ∧ changed st = 0 ∧ removed st = 0 ∧
          removed_files st = [] ∧ missing_in_new st = false) as (? & ? & ? & ? & ?).
  { revert Hrun.
    apply (for_each_inv (λ s, locale s = L ∧ changed s = 0 ∧ removed s = 0 ∧
                              removed_files s = [] ∧ missing_in_new s = false));
      [|done].
    by intros ? ? ? ? ? _ ? ->%copy_png_inr. }
  destruct st; simpl in *; by subst.
Qed.

Definition sum_stats (sl : list LocaleStats) : Totals :=
  mkTotals (sum_list_with changed sl) (sum_list_with added sl)
           (sum_list_with removed sl).

(** C7: in the result of a completed [sync_all], each total is the sum of
    that count over the per-locale entries. *)
Theorem totals_are_sums (old_root new_root : path) (m m' : fs)
    (sl : list LocaleStats) (t : Totals) (w : list string) :
  sync_all TOP_IGNORE_PCT LEFT_IGNORE_PCT old_root new_root m = (m', inr (sl, t, w)) →
  totals_changed t = sum_list_with changed sl ∧
  totals_added t = sum_list_with added sl ∧
  totals_removed t = sum_list_with removed sl.
Proof.
  unfold sync_all. intros (? & old_l & _ & Hb)%bind_inr.
  apply bind_inr in Hb as (? & new_l & _ & Hb).
  apply bind_inr in Hb as (? & a1 & H1 & Hb).
  apply bind_inr in Hb as (? & a2 & H2 & Hb).
  apply ret_inr in Hb as [_ [= -> -> ->]].
  set (I := λ a : acc, totals a = sum_stats (stats_list a)).
  assert (I a1) as HI1.
  { revert H1. apply for_each_inv; [|done].
    intros L a ? ? a' _ Ha (p & ? & st & _ & _ & E1 & E2 & _)%sync_old_locale_inr.
    unfold I, sum_stats. rewrite E1, E2, Ha, !sum_list_with_app. simpl.
    unfold add_totals. simpl. f_equal; lia. }
  assert (I a2) as HI2.
  { revert HI1 H2. apply for_each_inv.
    intros L a ? ? a' _ Ha (p & ? & pngs & st & _ & _ & _ & Hst & ->)%sync_new_locale_inr.
    apply copy_png_loop_stats in Hst as ->.
    unfold I, sum_stats. simpl. rewrite Ha, !sum_list_with_app. simpl.
    unfold add_added. simpl. f_equal; lia. }
  unfold I in HI2. rewrite HI2. done.
Qed.
End Stats.

Lemma totals_are_sums_witness :
  let m : fs := {[ ["old"] := Dir; ["new"] := Dir; ["en"; "new"] := Dir;
                   ["a.png"; "en"; "new"] := File [x01] ]} in
  ∃ m' sl t w,
    sync_all (H:=toy_PIL) tt tt ["old"] ["new"] m = (m', inr (sl, t, w)) ∧
    totals_added t = sum_list_with added sl.
Proof.
  intros m. eexists _, _, _, _. split; [vm_compute; reflexivity|].
  eapply (totals_are_sums (H:=toy_PIL) tt tt ["old"] ["new"] m).
  vm_compute. reflexivity.
Defined.

Section StatsConsistency.
Context `{!PIL}.
Variables TOP_IGNORE_PCT LEFT_IGNORE_PCT : float.

(** [removed] counts [removed_files], whose elements are
    [<locale>/<filename>] for the entry's own locale. *)
Definition consistent (st : LocaleStats) : Prop :=
  removed st = length (removed_files st) ∧
  ∀ s, s ∈ removed_files st → ∃ n, s = locale st +:+ "/" +:+ n.

Lemma stats_ok_consistent l st : stats_ok l st → consistent st.
Proof.
  intros (<- & _ & ? & Hall). split; [done|].
  intros s Hs. by apply (proj1 (Forall_forall _ _) Hall).
Qed.

Lemma sync_locale_consistent old_loc new_loc m m' st :
  sync_locale TOP_IGNORE_PCT LEFT_IGNORE_PCT old_loc new_loc m = (m', inr st) →
  locale st = name old_loc ∧ consistent st ∧
  (missing_in_new st = true → removed_files st = []).
Proof.
  intros [->|Hok]%sync_locale_stats.
  - repeat split; try done. by intros s ?%elem_of_nil.
  - split; [by destruct Hok|]. split; [by eapply stats_ok_consistent|].
    destruct Hok as (_ & -> & _). done.
Qed.

(** C10: every [LocaleStats] that [sync_locale] returns, and every entry of
    the result of [sync_all], has [removed] equal to the length of
    [removed_files], each element of which is [<locale>/<filename>] for
    the entry's own locale; an entry flagged [missing_in_new], and an entry
    for a locale that the old tree did not have, has no removed files. *)
Theorem stats_consistency :
  (∀ old_loc new_loc m m' st,
     sync_locale TOP_IGNORE_PCT LEFT_IGNORE_PCT old_loc new_loc m = (m', inr st) →
     consistent st ∧ (missing_in_new st = true → removed_files st = [])) ∧
  (∀ old_root new_root m m' sl t w,
     sync_all TOP_IGNORE_PCT LEFT_IGNORE_PCT old_root new_root m = (m', inr (sl, t, w)) →
     ∀ st, st ∈ sl →
       consistent st ∧
       (missing_in_new st = true → removed_files st = []) ∧
       (locale st ∉ locale_names m old_root → removed_files st = [])).
Proof.
  split.
  - intros old_loc new_loc m m' st Hrun.
    by apply sync_locale_consistent in Hrun as (_ & ? & ?).
  - intros old_root new_root m m' sl t w. unfold sync_all.
    intros (m0 & old_l & H0 & Hb)%bind_inr.
    assert (∃ lo : list string,
              (∀ L, L ∈ lo → L ∈ locale_names m old_root) ∧
              old_l = child old_root <$> lo) as (lo & Hlo & ->).
    { rewrite iter_locale_dirs_run in H0. destruct (m !! old_root) as [[?|]|]; [done|..].
      - apply ret_inr in H0 as [_ ->]. eauto.
      - apply ret_inr in H0 as [_ ->]. exists []. split; [|done]. by intros ? ?%elem_of_nil. }
    apply bind_inr in Hb as (? & new_l & _ & Hb).
    apply bind_inr in Hb as (? & a1 & H1 & Hb).
    apply bind_inr in Hb as (? & a2 & H2 & Hb).
    apply ret_inr in Hb as [_ [= -> -> ->]].
    set (P := λ st : LocaleStats,
           consistent st ∧ (missing_in_new st = true → removed_files st = []) ∧
           (locale st ∉ locale_names m old_root → removed_files st = [])).
    set (I := λ a : acc, Forall P (stats_list a)).
    assert (I a1) as HI1.
    { revert H1. apply (for_each_inv I); [|by apply Forall_nil].
      intros L a ? ? a' HL Ha (p & ? & st & Hp & Hs & E1 & _)%sync_old_locale_inr.
      unfold I. rewrite E1. apply Forall_app. split; [done|]. apply Forall_singleton.
      apply sync_locale_consistent in Hs as (Hloc & ? & ?).
      split; [done|]. split; [done|]. intros Hnot. exfalso. apply Hnot.
      rewrite Hloc. rewrite dict_by_name_lookup in Hp.
      case_decide as HLin; [|done]. injection Hp as <-. simpl. by apply Hlo. }
    assert (I a2) as HI2.
    { revert HI1 H2. apply (for_each_inv I).
      intros L a ? ? a' _ Ha (p & ? & pngs & st & _ & _ & _ & Hst & ->)%sync_new_locale_inr.
      apply copy_png_loop_stats in Hst as ->.
      unfold I. simpl. apply Forall_app. split; [done|]. apply Forall_singleton.
      repeat split; simpl; try done. by intros s ?%elem_of_nil. }
    intros st Hst. by apply (proj1 (Forall_forall _ _) HI2).
Qed.
End StatsConsistency.

Lemma stats_consistency_witness :
  let m : fs := {[ ["old"] := Dir; ["new"] := Dir; ["en"; "old"] := Dir;
                   ["en"; "new"] := Dir; ["a.png"; "en"; "old"] := File [x01] ]} in
  let st := mkLocaleStats "en" 0 0 1 ["en/a.png"] false in
  sync_locale (H:=toy_PIL) tt tt ["en"; "old"] (Some ["en"; "new"]) m
    = (delete ["a.png"; "en"; "old"] m, inr st) ∧
  consistent st.
Proof.
  intros m st.
  assert (sync_locale (H:=toy_PIL) tt tt ["en"; "old"] (Some ["en"; "new"]) m
          = (delete ["a.png"; "en"; "old"] m, inr st)) as Hrun
    by (vm_compute; reflexivity).
  split; [done|].
  by apply (proj1 (stats_consistency (H:=toy_PIL) tt tt)) in Hrun as [? _].
Defined.

(** ** Loops that work name by name *)

(** A loop over names whose step for [n] reads only [d/n] and [e/n] and
    writes only [d/n] acts on every name as it would on the state the loop
    started from. *)
Section LocalLoop.
Context {S : Type} (d e : path).
Variable step : string → option node → option node → exn + (option node * (S → S)).
Variable ok : string → option node → option node → Prop.
Variable body : string → S → M S.
Hypothesis body_step : ∀ n s m,
  m !! d = Some Dir → ok n (m !! (n :: d)) (m !! (n :: e)) →
  body n s m = match step n (m !! (n :: d)) (m !! (n :: e)) with
               | inl err => (m, inl err)
               | inr (v, f) => (partial_alter (λ _, v) (n :: d) m, inr (f s))
               end.

Definition step_at (m : fs) (n : string) : exn + (option node * (S → S)) :=
  step n (m !! (n :: d)) (m !! (n :: e)).

Definition out_at (m : fs) (n : string) : option node :=
  match step_at m n with
  | inr (v, _) => v
  | inl _ => m !! (n :: d)
  end.

Definition fun_at (m : fs) (n : string) : S → S :=
  match step_at m n with
  | inr (_, f) => f
  | inl _ => id
  end.

Definition final (m : fs) (l : list string) (p : path) : option node :=
  match p with
  | n :: d' => if decide (d' = d ∧ n ∈ l) then out_at m n else m !! p
  | [] => m !! p
  end.

Lemma final_nil m p : final m [] p = m !! p.
Proof.
  destruct p as [|n d']; [done|]. simpl. rewrite decide_False; [done|].
  intros [_ Hn]. by apply elem_of_nil in Hn.
Qed.

Lemma foldl_ext_in {A B} (f g : A → B → A) (l : list B) a :
  (∀ x b, x ∈ l → f b x = g b x) → foldl f a l = foldl g a l.
Proof.
  revert a. induction l as [|x l IH]; intros a Hfg; [done|]. simpl.
  rewrite Hfg by left. apply IH. intros y b Hy. apply Hfg. by right.
Qed.

Lemma local_loop l :
  NoDup l → ∀ m s m' r,
  m !! d = Some Dir →
  (∀ n, n ∈ l → ok n (m !! (n :: d)) (m !! (n :: e))) →
  for_each l body s m = (m', r) →
  match r with
  | inr s' =>
      Forall (λ n, ∃ y, step_at m n = inr y) l ∧
      s' = foldl (λ s n, fun_at m n s) s l ∧
      ∀ p, m' !! p = final m l p
  | inl err => Exists (λ n, step_at m n = inl err) l
  end.
Proof.
  induction l as [|n l IH]; intros Hnd m s m' r Hd Hok.
  - intros [= <- <-]. split; [by apply Forall_nil|]. split; [done|].
    intros p. by rewrite final_nil.
  - apply NoDup_cons in Hnd as [Hn Hnd]. simpl. rewrite bind_run.
    rewrite body_step; [|done|apply Hok; by left].
    destruct (step n (m !! (n :: d)) (m !! (n :: e))) as [err|[v f]] eqn:Es.
    { intros [= <- <-]. by left. }
    set (m1 := partial_alter (λ _, v) (n :: d) m).
    assert (∀ n' x, n' ≠ n → m1 !! (n' :: x) = m !! (n' :: x)) as Hagree.
    { intros n' x Hne. unfold m1. apply lookup_partial_alter_ne. by intros [= ->]. }
    assert (m1 !! d = Some Dir) as Hd1.
    { unfold m1. rewrite lookup_partial_alter_ne; [done|].
      intros Heq. apply (f_equal length) in Heq. simpl in Heq. lia. }
    assert (∀ n', n' ∈ l → step_at m1 n' = step_at m n') as Hsame.
    { intros n' Hn'. unfold step_at. rewrite !Hagree; [done|..]; by intros ->. }
    intros Hrun. apply IH in Hrun; [|done|done|].
    2:{ intros n' Hn'. rewrite !Hagree by (by intros ->). apply Hok. by right. }
    destruct r as [err|s'].
    + right. apply Exists_exists in Hrun as [n' [Hn' Hs]].
      apply Exists_exists. exists n'. split; [done|]. by rewrite <- Hsame.
    + destruct Hrun as (Hall & -> & Hfin). split; [|split].
      * apply Forall_cons. split; [by exists (v, f)|].
        apply Forall_forall. intros n' Hn'.
        rewrite <- Hsame by done. by apply (proj1 (Forall_forall _ _) Hall).
      * simpl. replace (fun_at m n s) with (f s)
          by (unfold fun_at, step_at; by rewrite Es).
        apply foldl_ext_in. intros n' b Hn'. unfold fun_at. by rewrite Hsame.
      * intros p. rewrite Hfin. destruct p as [|n2 d']; simpl.
        { unfold m1. by rewrite lookup_partial_alter_ne. }
        destruct (decide (d' = d ∧ n2 ∈ l)) as [[-> Hin]|Hno].
        { rewrite decide_True by (split; [done|by right]).
          unfold out_at. rewrite Hsame by done.
          rewrite Hagree; [done|]. by intros ->. }
        destruct (decide (n2 :: d' = n :: d)) as [[= -> ->]|Hne].
        { rewrite decide_True by (split; [done|by left]).
          unfold m1. rewrite lookup_partial_alter_eq.
          unfold out_at, step_at. by rewrite Es. }
        rewrite decide_False.
        { unfold m1. by rewrite lookup_partial_alter_ne. }
        intros [-> [->|Hin]%elem_of_cons]; [done|]. by apply Hno.
Qed.
End LocalLoop.

Lemma for_each_fmap {A B S} (g : A → B) (l : list A) (body : B → S → M S) s m :
  for_each (g <$> l) body s m = for_each l (λ x, body (g x)) s m.
Proof.
  revert s m. induction l as [|x l IH]; intros s m; [done|]. simpl.
  rewrite !bind_run. destruct (body (g x) s m) as [m1 [err|s1]]; [done|]. apply IH.
Qed.

Lemma StronglySorted_filter {A} (R : relation A) (P : A → Prop)
    `{∀ x, Decision (P x)} (l : list A) :
  StronglySorted R l → StronglySorted R (filter P l).
Proof.
  induction 1 as [|x l Hl IH Hx]; [constructor|].
  rewrite filter_cons. case_decide; [|done]. constructor; [done|].
  apply Forall_forall. intros y [_ Hy]%list_elem_of_filter.
  by apply (proj1 (Forall_forall _ _) Hx).
Qed.

(** The loops of [sync_locale] run over these lists. *)
Lemma sorted_elements_filter (P : string → Prop) `{∀ x, Decision (P x)}
    (X : gset string) (l : list string) :
  StronglySorted str_le l → NoDup l →
  (∀ n, n ∈ X ↔ n ∈ l ∧ P n) →
  sorted (elements X) = filter P l.
Proof.
  intros Hs Hd HX. apply strongly_sorted_ext.
  - apply sorted_strongly.
  - by apply StronglySorted_filter.
  - apply NoDup_sorted_elements.
  - by apply NoDup_filter.
  - intros n. rewrite elem_of_sorted_elements, list_elem_of_filter, HX. tauto.
Qed.

(** ** The comparison as a function of the bytes *)

Section Compare.
Context `{!PIL}.
Variables TOP_IGNORE_PCT LEFT_IGNORE_PCT : float.

Definition same_bytes (a b : list byte) : exn + bool :=
  match Image_open a, Image_open b with
  | Some a_im, Some b_im =>
      if bool_decide (im_size a_im ≠ im_size b_im) then inr false
      else
        match convert_RGB a_im, convert_RGB b_im with
        | Some a_rgb, Some b_rgb =>
            inr (Nat.eqb (count_diff
                            (phash (masked TOP_IGNORE_PCT LEFT_IGNORE_PCT a_rgb))
                            (phash (masked TOP_IGNORE_PCT LEFT_IGNORE_PCT b_rgb))) 0)
        | _, _ => inl OSError
        end
  | _, _ => inl UnidentifiedImageError
  end.

(** An image that loads: its bytes are an image whose pixels can be read. *)
Definition decodable (a : list byte) : Prop :=
  ∃ im rgb, Image_open a = Some im ∧ convert_RGB im = Some rgb.

Lemma same_except_time_run p q m a b :
  m !! p = Some (File a) → m !! q = Some (File b) →
  same_except_time TOP_IGNORE_PCT LEFT_IGNORE_PCT p q m = (m, same_bytes a b).
Proof.
  intros Hp Hq. unfold same_except_time, same_bytes.
  rewrite bind_run, (Image_open_path_run _ _ _ Hp).
  destruct (Image_open a) as [a_im|] eqn:Ea; [|done].
  rewrite bind_run, (Image_open_path_run _ _ _ Hq).
  destruct (Image_open b) as [b_im|] eqn:Eb; [|done].
  case_bool_decide; [done|].
  rewrite bind_run. unfold masked_phash at 1.
  rewrite bind_run, (Image_open_path_run _ _ _ Hp), Ea, bind_run.
  destruct (convert_RGB a_im) as [a_rgb|] eqn:Eca; [|done]. simpl.
  replace (let '(w, h) := im_size a_rgb in _) with
    (ret (phash (masked TOP_IGNORE_PCT LEFT_IGNORE_PCT a_rgb)))
    by (unfold masked; by destruct (im_size a_rgb)).
  rewrite ret_run, bind_run. unfold masked_phash.
  rewrite bind_run, (Image_open_path_run _ _ _ Hq), Eb, bind_run.
  destruct (convert_RGB b_im) as [b_rgb|] eqn:Ecb; [|done]. simpl.
  replace (let '(w, h) := im_size b_rgb in _) with
    (ret (phash (masked TOP_IGNORE_PCT LEFT_IGNORE_PCT b_rgb)))
    by (unfold masked; by destruct (im_size b_rgb)).
  rewrite ret_run, bind_run, hash_sub_run. done.
Qed.

Lemma same_bytes_refl a : decodable a → same_bytes a a = inr true.
Proof.
  intros (im & rgb & Ho & Hc). unfold same_bytes. rewrite Ho.
  rewrite bool_decide_false by (intros Hne; by apply Hne).
  by rewrite Hc, count_diff_refl.
Qed.

Lemma same_bytes_refl_not_false a : same_bytes a a ≠ inr false.
Proof.
  unfold same_bytes. destruct (Image_open a) as [im|]; [|done].
  rewrite bool_decide_false by (intros Hne; by apply Hne).
  destruct (convert_RGB im); [|done]. by rewrite count_diff_refl.
Qed.

Lemma same_bytes_inr_decodable a b r :
  same_bytes a b = inr r → Image_open a ≠ None ∧ Image_open b ≠ None.
Proof.
  unfold same_bytes. destruct (Image_open a), (Image_open b); done.
Qed.
End Compare.

(** ** The three loops of [sync_locale], name by name *)

Section Steps.
Context `{!PIL}.
Variables TOP_IGNORE_PCT LEFT_IGNORE_PCT : float.
Context (d e : path) (lo ln : list string).

Definition step_changed (n : string) (v1 v2 : option node)
    : exn + (option node * (LocaleStats → LocaleStats)) :=
  match v1, v2 with
  | Some (File a), Some (File b) =>
      match same_bytes TOP_IGNORE_PCT LEFT_IGNORE_PCT a b with
      | inl err => inl err
      | inr true => inr (v1, id)
      | inr false => inr (v2, incr_changed)
      end
  | _, _ => inl KeyError
  end.

Definition ok_changed (n : string) (v1 v2 : option node) : Prop :=
  n ∈ lo ∧ n ∈ ln ∧ (∃ a, v1 = Some (File a)) ∧ ∃ b, v2 = Some (File b).

Lemma sync_changed_step n s m :
  m !! d = Some Dir → ok_changed n (m !! (n :: d)) (m !! (n :: e)) →
  sync_changed TOP_IGNORE_PCT LEFT_IGNORE_PCT
    (dict_by_name (child d <$> lo)) (dict_by_name (child e <$> ln)) n s m
  = match step_changed n (m !! (n :: d)) (m !! (n :: e)) with
    | inl err => (m, inl err)
    | inr (v, f) => (partial_alter (λ _, v) (n :: d) m, inr (f s))
    end.
Proof.
  intros Hd (Hlo & Hln & [a Ha] & [b Hb]). unfold sync_changed, step_changed.
  rewrite bind_run, getitem_run by done. rewrite bind_run, getitem_run by done.
  rewrite bind_run, (same_except_time_run _ _ _ _ _ a b Ha Hb). rewrite Ha, Hb.
  destruct (same_bytes _ _ a b) as [err|[|]] eqn:Es; [done| |]; simpl.
  - change (partial_alter _ _ m) with (<[n :: d := File a]> m). by rewrite insert_id.
  - rewrite bind_run, copy_file_run by done. unfold copy2, is_dir. rewrite Ha, Hb.
    assert (e ≠ d) as Hed.
    { intros ->. rewrite Ha in Hb. injection Hb as ->.
      by apply same_bytes_refl_not_false in Es. }
    rewrite bool_decide_false by (by intros [= ?]). simpl. by rewrite Ha, Hd.
Qed.

Definition step_removed (n : string) (v1 v2 : option node)
    : exn + (option node * (LocaleStats → LocaleStats)) :=
  match v1 with
  | Some Dir => inl IsADirectoryError
  | _ => inr (None, record_removed (name d +:+ "/" +:+ n))
  end.

Definition ok_removed (n : string) (v1 v2 : option node) : Prop := n ∈ lo.

Lemma sync_removed_step n s m :
  m !! d = Some Dir → ok_removed n (m !! (n :: d)) (m !! (n :: e)) →
  sync_removed d (dict_by_name (child d <$> lo)) n s m
  = match step_removed n (m !! (n :: d)) (m !! (n :: e)) with
    | inl err => (m, inl err)
    | inr (v, f) => (partial_alter (λ _, v) (n :: d) m, inr (f s))
    end.
Proof.
  intros Hd Hlo. unfold sync_removed, step_removed.
  rewrite bind_run, getitem_run by done. rewrite bind_run.
  unfold remove_file, unlink.
  destruct (m !! (n :: d)) as [[a|]|] eqn:E; [done|done|].
  change (partial_alter _ _ m) with (delete (n :: d) m). by rewrite delete_id.
Qed.

Definition step_added (n : string) (v1 v2 : option node)
    : exn + (option node * (LocaleStats → LocaleStats)) :=
  match v1, v2 with
  | None, Some (File b) => inr (v2, incr_added)
  | _, _ => inl KeyError
  end.

Definition ok_copy (n : string) (v1 v2 : option node) : Prop :=
  v1 = None ∧ ∃ b, v2 = Some (File b).

Lemma copy_file_step n m :
  m !! d = Some Dir → ok_copy n (m !! (n :: d)) (m !! (n :: e)) →
  copy_file (n :: e) (n :: d) m = (partial_alter (λ _, m !! (n :: e)) (n :: d) m, inr tt).
Proof.
  intros Hd [Hv [b Hb]]. rewrite copy_file_run by done.
  unfold copy2, is_dir. rewrite Hv, Hb.
  rewrite bool_decide_false; [simpl; by rewrite ?Hv, ?Hb, Hd|].
  intros [= ->]. congruence.
Qed.

Definition ok_added (n : string) (v1 v2 : option node) : Prop :=
  n ∈ ln ∧ ok_copy n v1 v2.

Lemma sync_added_step n s m :
  m !! d = Some Dir → ok_added n (m !! (n :: d)) (m !! (n :: e)) →
  sync_added d (dict_by_name (child e <$> ln)) n s m
  = match step_added n (m !! (n :: d)) (m !! (n :: e)) with
    | inl err => (m, inl err)
    | inr (v, f) => (partial_alter (λ _, v) (n :: d) m, inr (f s))
    end.
Proof.
  intros Hd [Hln Hok]. unfold sync_added, step_added.
  rewrite bind_run, getitem_run by done. rewrite bind_run. unfold child.
  rewrite copy_file_step by done. destruct Hok as [-> [b ->]]. done.
Qed.

Lemma copy_png_step n s m :
  m !! d = Some Dir → ok_copy n (m !! (n :: d)) (m !! (n :: e)) →
  copy_png d (n :: e) s m
  = match step_added n (m !! (n :: d)) (m !! (n :: e)) with
    | inl err => (m, inl err)
    | inr (v, f) => (partial_alter (λ _, v) (n :: d) m, inr (f s))
    end.
Proof.
  intros Hd Hok. unfold copy_png, step_added. rewrite bind_run. unfold child. simpl.
  rewrite copy_file_step by done. destruct Hok as [-> [b ->]]. done.
Qed.
End Steps.

Lemma final_in {S} d e (step : string → option node → option node → exn + (option node * (S → S)))
    m l n :
  n ∈ l → final d e step m l (n :: d) = out_at d e step m n.
Proof. intros Hn. simpl. by rewrite decide_True. Qed.

Lemma final_other {S} d e (step : string → option node → option node → exn + (option node * (S → S)))
    m l p :
  (∀ n, n ∈ l → p ≠ n :: d) → final d e step m l p = m !! p.
Proof.
  intros Hp. destruct p as [|n d']; [done|]. simpl.
  rewrite decide_False; [done|]. intros [-> Hn]. by apply (Hp n).
Qed.

Lemma foldl_incr_changed (f : string → bool) (l : list string) st :
  foldl (λ s n, if f n then incr_changed s else s) st l
  = mkLocaleStats (locale st) (changed st + length (filter (λ n, f n = true) l))
      (added st) (removed st) (removed_files st) (missing_in_new st).
Proof.
  revert st. induction l as [|n l IH]; intros st; simpl.
  - destruct st; simpl. f_equal. lia.
  - rewrite IH, filter_cons. destruct (decide (f n = true)) as [E|E].
    + rewrite E. simpl. f_equal. lia.
    + apply not_true_is_false in E. by rewrite E.
Qed.

Lemma foldl_record_removed (q : string → string) (l : list string) st :
  foldl (λ s n, record_removed (q n) s) st l
  = mkLocaleStats (locale st) (changed st) (added st) (removed st + length l)
      (removed_files st ++ (q <$> l)) (missing_in_new st).
Proof.
  revert st. induction l as [|n l IH]; intros st; simpl.
  - destruct st; simpl. f_equal; [lia|]. by rewrite app_nil_r.
  - rewrite IH. simpl. f_equal; [lia|]. by rewrite <- app_assoc.
Qed.

Lemma foldl_incr_added (l : list string) st :
  foldl (λ s _, incr_added s) st l
  = mkLocaleStats (locale st) (changed st) (added st + length l) (removed st)
      (removed_files st) (missing_in_new st).
Proof.
  revert st. induction l as [|n l IH]; intros st; simpl.
  - destruct st; simpl. f_equal. lia.
  - rewrite IH. simpl. f_equal. lia.
Qed.

Lemma elem_of_inter_lists (O N : list string) n :
  n ∈ (list_to_set O ∩ list_to_set N : gset string) ↔ n ∈ O ∧ n ∈ N.
Proof. set_solver. Qed.

Lemma elem_of_diff_lists (O N : list string) n :
  n ∈ (list_to_set O ∖ list_to_set N : gset string) ↔ n ∈ O ∧ n ∉ N.
Proof. set_solver. Qed.

Section SyncFiles.
Context `{!PIL}.
Variables TOP_IGNORE_PCT LEFT_IGNORE_PCT : float.

Definition content (m : fs) (p : path) : list byte :=
  match m !! p with
  | Some (File c) => c
  | _ => []
  end.

(** The comparison of [d/n] with [e/n]. *)
Definition cmp (m : fs) (d e : path) (n : string) : exn + bool :=
  same_bytes TOP_IGNORE_PCT LEFT_IGNORE_PCT (content m (n :: d)) (content m (n :: e)).

Definition differs (m : fs) (d e : path) (n : string) : bool :=
  match cmp m d e n with
  | inr false => true
  | _ => false
  end.

(** The statistics after [sync_files], from those before. *)
Definition files_stats (m : fs) (d e : path) (st : LocaleStats) : LocaleStats :=
  let O := png_names m d in
  let N := png_names m e in
  mkLocaleStats (locale st)
    (changed st + length (filter (λ n, differs m d e n = true) (filter (λ n, n ∈ N) O)))
    (added st + length (filter (λ n, n ∉ O) N))
    (removed st + length (filter (λ n, n ∉ N) O))
    (removed_files st ++ ((λ n, name d +:+ "/" +:+ n) <$> filter (λ n, n ∉ N) O))
    (missing_in_new st).

Lemma sync_files_spec d e st m m' r :
  m !! d = Some Dir → m !! e = Some Dir →
  (∀ n, n ∈ png_names m e → m !! (n :: d) ≠ Some Dir) →
  sync_files TOP_IGNORE_PCT LEFT_IGNORE_PCT d e st m = (m', r) →
  let O := png_names m d in
  let N := png_names m e in
  match r with
  | inr st' =>
      (∀ n, n ∈ O → n ∈ N → ∃ b, cmp m d e n = inr b) ∧
      st' = files_stats m d e st ∧
      (∀ n, n ∈ O → n ∈ N →
         m' !! (n :: d) = if differs m d e n then m !! (n :: e) else m !! (n :: d)) ∧
      (∀ n, n ∈ O → n ∉ N → m' !! (n :: d) = None) ∧
      (∀ n, n ∉ O → n ∈ N → m' !! (n :: d) = m !! (n :: e)) ∧
      (∀ p, (∀ n, n ∈ O ∨ n ∈ N → p ≠ n :: d) → m' !! p = m !! p)
  | inl err => ∃ n, n ∈ O ∧ n ∈ N ∧ cmp m d e n = inl err
  end.
Proof.
  intros Hd He Hcol Hrun O N. unfold sync_files in Hrun.
  rewrite bind_run, iter_png_files_run, Hd in Hrun.
  rewrite bind_run, iter_png_files_run, He in Hrun.
  fold O N in Hrun.
  assert (StronglySorted str_le O) as HsO by apply listing_strongly.
  assert (StronglySorted str_le N) as HsN by apply listing_strongly.
  assert (NoDup O) as HdO by apply NoDup_listing.
  assert (NoDup N) as HdN by apply NoDup_listing.
  rewrite !dict_by_name_dom in Hrun.
  assert (sorted (elements (list_to_set O ∩ list_to_set N : gset string))
          = filter (λ n, n ∈ N) O) as E1.
  { apply sorted_elements_filter; [done..|]. intros n. set_solver. }
  assert (sorted (elements (list_to_set O ∖ list_to_set N : gset string))
          = filter (λ n, n ∉ N) O) as E2.
  { apply sorted_elements_filter; [done..|]. intros n. set_solver. }
  assert (sorted (elements (list_to_set N ∖ list_to_set O : gset string))
          = filter (λ n, n ∉ O) N) as E3.
  { apply sorted_elements_filter; [done..|]. intros n. set_solver. }
  rewrite E1, E2, E3 in Hrun. clear E1 E2 E3.
  set (both := filter (λ n, n ∈ N) O) in *.
  set (gone := filter (λ n, n ∉ N) O) in *.
  set (fresh := filter (λ n, n ∉ O) N) in *.
  assert (∀ n, n ∈ O → ∃ a, m !! (n :: d) = Some (File a)) as HO.
  { intros n Hn. apply elem_of_png_names in Hn as [_ ?]. done. }
  assert (∀ n, n ∈ N → ∃ b, m !! (n :: e) = Some (File b)) as HN.
  { intros n Hn. apply elem_of_png_names in Hn as [_ ?]. done. }
  assert (∀ n, n ∈ N → n ∉ O → m !! (n :: d) = None) as Hfree.
  { intros n Hn HnO. pose proof (Hcol n Hn) as Hc.
    destruct (m !! (n :: d)) as [[a|]|] eqn:E; [|done..].
    exfalso. apply HnO. apply elem_of_png_names. split; [|eauto].
    by apply elem_of_png_names in Hn as [? _]. }
  assert (∀ n, n ∈ O → n ∈ N →
            step_at d e (step_changed TOP_IGNORE_PCT LEFT_IGNORE_PCT) m n
            = match cmp m d e n with
              | inl err => inl err
              | inr true => inr (m !! (n :: d), id)
              | inr false => inr (m !! (n :: e), incr_changed)
              end) as Hstep1.
  { intros n [a Ha]%HO [b Hb]%HN. unfold step_at, step_changed, cmp, content.
    by rewrite Ha, Hb. }
  assert (∀ n, n ∈ both ↔ n ∈ O ∧ n ∈ N) as Hboth
    by (intros n; unfold both; rewrite list_elem_of_filter; tauto).
  rewrite bind_run in Hrun.
  destruct (for_each both _ st m) as [m1 r1] eqn:R1.
  apply (local_loop d e _ (ok_changed O N) _
           (sync_changed_step TOP_IGNORE_PCT LEFT_IGNORE_PCT d e O N)) in R1;
    [|by apply NoDup_filter|done|].
  2:{ intros n [HnO HnN]%Hboth. repeat split; auto. }
  destruct r1 as [err|st1].
  { injection Hrun as <- <-. apply Exists_exists in R1 as [n [[HnO HnN]%Hboth Hs]].
    exists n. split; [done|]. split; [done|]. rewrite Hstep1 in Hs by done.
    destruct (cmp m d e n) as [?|[|]]; congruence. }
  destruct R1 as (Hall1 & -> & Hm1).
  assert (∀ n x, n ∉ both → m1 !! (n :: x) = m !! (n :: x)) as Hm1o.
  { intros n x Hn. rewrite Hm1. apply final_other. intros n' Hn' [= -> _]. done. }
  assert (m1 !! d = Some Dir) as Hd1.
  { rewrite Hm1, final_other; [done|]. intros n _ Heq.
    apply (f_equal length) in Heq. simpl in Heq. lia. }
  assert (∀ n, n ∈ gone ↔ n ∈ O ∧ n ∉ N) as Hgone
    by (intros n; unfold gone; rewrite list_elem_of_filter; tauto).
  assert (∀ n, n ∈ fresh ↔ n ∈ N ∧ n ∉ O) as Hfresh
    by (intros n; unfold fresh; rewrite list_elem_of_filter; tauto).
  rewrite bind_run in Hrun.
  destruct (for_each gone _ _ m1) as [m2 r2] eqn:R2.
  apply (local_loop d e _ (ok_removed O) _ (sync_removed_step d e O)) in R2;
    [|by apply NoDup_filter|done|].
  2:{ intros n [HnO _]%Hgone. done. }
  assert (∀ n, n ∈ gone →
            step_at d e (step_removed d) m1 n
            = inr (None, record_removed (name d +:+ "/" +:+ n))) as Hstep2.
  { intros n [HnO HnN]%Hgone. unfold step_at, step_removed.
    rewrite Hm1o by (rewrite Hboth; tauto). by destruct (HO n HnO) as [a ->]. }
  destruct r2 as [err|st2].
  { exfalso. apply Exists_exists in R2 as [n [Hn Hs]]. by rewrite Hstep2 in Hs. }
  destruct R2 as (_ & -> & Hm2).
  assert (∀ n x, n ∉ gone → m2 !! (n :: x) = m1 !! (n :: x)) as Hm2o.
  { intros n x Hn. rewrite Hm2. apply final_other. intros n' Hn' [= -> _]. done. }
  assert (m2 !! d = Some Dir) as Hd2.
  { rewrite Hm2, final_other; [done|]. intros n _ Heq.
    apply (f_equal length) in Heq. simpl in Heq. lia. }
  assert (∀ n, n ∈ fresh → m2 !! (n :: d) = None ∧ m2 !! (n :: e) = m !! (n :: e)) as Hm2f.
  { intros n [HnN HnO]%Hfresh.
    rewrite !Hm2o, !Hm1o by (rewrite ?Hboth, ?Hgone; tauto). auto. }
  destruct (for_each fresh _ _ m2) as [m3 r3] eqn:R3.
  apply (local_loop d e _ (ok_added N) _ (sync_added_step d e N)) in R3;
    [|by apply NoDup_filter|done|].
  2:{ intros n Hn. destruct (Hm2f n Hn) as [-> ->]. apply Hfresh in Hn as [HnN _].
      split; [done|]. split; [done|]. by apply HN. }
  assert (∀ n, n ∈ fresh →
            step_at d e step_added m2 n = inr (m !! (n :: e), incr_added)) as Hstep3.
  { intros n Hn. unfold step_at, step_added. destruct (Hm2f n Hn) as [-> ->].
    apply Hfresh in Hn as [HnN _]. by destruct (HN n HnN) as [b ->]. }
  injection Hrun as <- <-.
  destruct r3 as [err|st3].
  { exfalso. apply Exists_exists in R3 as [n [Hn Hs]]. by rewrite Hstep3 in Hs. }
  destruct R3 as (_ & -> & Hm3).
  assert (∀ n x, n ∉ fresh → m3 !! (n :: x) = m2 !! (n :: x)) as Hm3o.
  { intros n x Hn. rewrite Hm3. apply final_other. intros n' Hn' [= -> _]. done. }
  assert (∀ n, n ∈ O → n ∈ N → ∃ b, cmp m d e n = inr b) as Hcmp.
  { intros n HnO HnN.
    assert (n ∈ both) as Hn by (apply Hboth; auto).
    apply (proj1 (Forall_forall _ _) Hall1) in Hn as [y Hy].
    rewrite Hstep1 in Hy by done. destruct (cmp m d e n) as [?|b]; [done|]. eauto. }
  split; [done|]. split; [|split; [|split; [|split]]].
  - rewrite (foldl_ext_in _ (λ s _, incr_added s) fresh).
    2:{ intros n s Hn. unfold fun_at. by rewrite Hstep3. }
    rewrite (foldl_ext_in _ (λ s n, record_removed (name d +:+ "/" +:+ n) s) gone).
    2:{ intros n s Hn. unfold fun_at. by rewrite Hstep2. }
    rewrite (foldl_ext_in _ (λ s n, if differs m d e n then incr_changed s else s) both).
    2:{ intros n s [HnO HnN]%Hboth. unfold fun_at, differs. rewrite Hstep1 by done.
        by destruct (cmp m d e n) as [?|[|]]. }
    rewrite foldl_incr_added, foldl_record_removed, foldl_incr_changed. done.
  - intros n HnO HnN.
    rewrite Hm3o, Hm2o by (rewrite ?Hfresh, ?Hgone; tauto).
    rewrite Hm1, final_in by (apply Hboth; auto).
    unfold out_at, differs. rewrite Hstep1 by done.
    destruct (Hcmp n HnO HnN) as [[|] ->]; done.
  - intros n HnO HnN.
    rewrite Hm3o by (rewrite Hfresh; tauto).
    rewrite Hm2, final_in by (apply Hgone; auto).
    unfold out_at. by rewrite Hstep2 by (apply Hgone; auto).
  - intros n HnO HnN.
    rewrite Hm3, final_in by (apply Hfresh; auto).
    unfold out_at. by rewrite Hstep3 by (apply Hfresh; auto).
  - intros p Hp.
    rewrite Hm3, final_other by (intros n [? ?]%Hfresh; apply Hp; auto).
    rewrite Hm2, final_other by (intros n [? ?]%Hgone; apply Hp; auto).
    rewrite Hm1, final_other by (intros n [? ?]%Hboth; apply Hp; auto). done.
Qed.
End SyncFiles.
